(** * The deferred source-map cache of the rewriter

    A shallow embedding of
    [packages/rewriter/lib/deferred-source-map-cache.ts]: the class
    [DeferredSourceMapCache] with its operations [reset], [defer],
    [_removeRequestsByUrl], [_getRequestById] and [resolve], followed by the
    properties of the store that the specification states.

    The cache object is an explicit value threaded through every operation.
    The helpers that [resolve] imports ([sourceMaps.getMappingUrl],
    [sourceMaps.tryDecodeInlineUrl], [rewriteJsSourceMapAsync]) and the
    [requestLib] it is constructed with live outside the file; they are taken
    as a record of functions, and every call made to one of them is logged, so
    that "no network fetch" and "no reconstruction work" are statements about
    the log.  [resolve] is modelled run to completion: nothing interleaves
    with it between its two [await]s. *)

From Stdlib Require Import List String Ascii ZArith Bool Lia.
Import ListNotations.

Open Scope string_scope.

(** ** JavaScript values

    [sourceMap], [headers] and everything the helpers return is typed [any]
    in the source.  The code looks at such a value in one way only: it tests
    it in an [if], that is, through ToBoolean. *)
Module Js.

Inductive any : Type :=
| undefined
| null
| boolean (b : bool)
| number (n : Z)             (* the integral numbers; the others are truthy *)
| NaN
| str (s : string)
| object (fields : properties)
with properties : Type :=
| no_more
| property (key : string) (value : any) (rest : properties).

(** ECMAScript ToBoolean. *)
Definition to_boolean (v : any) : bool :=
  match v with
  | undefined | null | NaN => false
  | boolean b => b
  | number n => negb (n =? 0)%Z
  | str s => negb (s =? EmptyString)
  | object _ => true
  end.

(** What a call leaves behind: a returned value or a thrown one (for an
    [async] function, a resolved or a rejected promise). *)
Inductive thrown : Type :=
| Error (message : string)     (* [new Error(message)] *)
| Rejection (reason : any).    (* whatever a helper rejected with *)

Inductive completion (A : Type) : Type :=
| Returned (a : A)
| Threw (e : thrown).

Arguments Returned {A} a.
Arguments Threw {A} e.

End Js.

Import Js.

(** ** Data model *)

(** [type DeferredSourceMapRequest]; a missing [sourceMap] reads as
    [undefined]. *)
Record DeferredSourceMapRequest : Type := mkRequest {
  uniqueId : string;
  url : string;
  js : option string;
  sourceMap : any
}.

(** The fields of the class that hold data.  [_idCounter] is initialised and
    then never read or written. *)
Record DeferredSourceMapCache : Type := mkCache {
  _idCounter : Z;
  requests : list DeferredSourceMapRequest
}.

(** The request object built at lines 85-89. *)
Module Req.
Record t : Type := make {
  url : string;
  headers : any;
  timeout : Z
}.
End Req.

(** ** Collaborators *)

(** [await this.requestLib(req, true)] followed by the destructuring of
    [body]: either a body comes out, or something inside the [try] threw. *)
Inductive FetchResult : Type :=
| FetchBody (body : any)
| FetchFailed (error : any).

(** [await rewriteJsSourceMapAsync(...)]. *)
Inductive ComposeResult : Type :=
| Composed (map : any)
| ComposeFailed (error : any).

(** How the outside world answers during one call of [resolve]. *)
Record Collaborators : Type := mkCollaborators {
  getMappingUrl : string -> any;
  tryDecodeInlineUrl : any -> any;
  requestLib : Req.t -> bool -> FetchResult;
  rewriteJsSourceMapAsync : string -> string -> any -> ComposeResult
}.

(** One entry of the call log. *)
Inductive Call : Type :=
| CallGetMappingUrl (js : string)
| CallTryDecodeInlineUrl (sourceMapUrl : any)
| CallRequestLib (req : Req.t) (promise : bool)
| CallRewriteJsSourceMapAsync (url js : string) (inputSourceMap : any).

Definition is_fetch (c : Call) : bool :=
  match c with CallRequestLib _ _ => true | _ => false end.

(** ** Errors *)

Definition dquote : string := String (ascii_of_nat 34) EmptyString.

(** Line 41. *)
Definition DuplicateIdentifier (uniqueId : string) : thrown :=
  Error ("Deferred sourcemap key " ++ dquote ++ uniqueId ++ dquote ++ " is not unique").

(** Line 72. *)
Definition MissingSource : thrown :=
  Error "Missing JS for source map rewrite".

(** ** Operations *)

(** [new DeferredSourceMapCache(requestLib)]. *)
Definition new_cache : DeferredSourceMapCache :=
  {| _idCounter := 0; requests := [] |}.

Definition set_requests (c : DeferredSourceMapCache)
    (l : list DeferredSourceMapRequest) : DeferredSourceMapCache :=
  {| _idCounter := _idCounter c; requests := l |}.

Definition reset (c : DeferredSourceMapCache) : DeferredSourceMapCache :=
  set_requests c [].

(** The predicate lodash builds from [{ uniqueId }]: the property is
    compared with [===]. *)
Definition has_id (id : string) (r : DeferredSourceMapRequest) : bool :=
  uniqueId r =? id.

(** The records [_.remove(_, { url })] leaves in the array. *)
Definition other_url (u : string) (r : DeferredSourceMapRequest) : bool :=
  negb (url r =? u).

(** [_.find(this.requests, { uniqueId })]: the first record with that id. *)
Definition _getRequestById (id : string) (c : DeferredSourceMapCache)
    : option DeferredSourceMapRequest :=
  find (has_id id) (requests c).

(** [_.remove(this.requests, { url })]: every record with that url goes, the
    others keep their order. *)
Definition _removeRequestsByUrl (u : string) (c : DeferredSourceMapCache)
    : DeferredSourceMapCache :=
  set_requests c (filter (other_url u) (requests c)).

(** [this.requests.push(request)]. *)
Definition push (request : DeferredSourceMapRequest) (c : DeferredSourceMapCache)
    : DeferredSourceMapCache :=
  set_requests c (requests c ++ [request]).

Definition defer (request : DeferredSourceMapRequest) (c : DeferredSourceMapCache)
    : completion string * DeferredSourceMapCache :=
  match _getRequestById (uniqueId request) c with
  | Some _ => (Threw (DuplicateIdentifier (uniqueId request)), c)
  | None =>
      (Returned (uniqueId request), push request (_removeRequestsByUrl (url request) c))
  end.

(** Lines 77-100: the input map and the calls made to find it.  The
    variable [inputSourceMap] is assigned the decoded value at line 81; the
    [catch] of line 95 assigns nothing, so after a failed fetch it still
    holds that (falsy) value. *)
Definition load_input_source_map (w : Collaborators)
    (request : DeferredSourceMapRequest) (headers : any) (sourceMapUrl : any)
    : any * list Call :=
  if to_boolean sourceMapUrl then
    let decoded := tryDecodeInlineUrl w sourceMapUrl in
    if to_boolean decoded then
      (decoded, [CallTryDecodeInlineUrl sourceMapUrl])
    else
      let req := {| Req.url := url request; Req.headers := headers; Req.timeout := 5000 |} in
      let inputSourceMap :=
        match requestLib w req true with
        | FetchBody body => body
        | FetchFailed _ => decoded
        end in
      (inputSourceMap, [CallTryDecodeInlineUrl sourceMapUrl; CallRequestLib req true])
  else (undefined, []).

(** Lines 75-103 up to the end of the second [await]: what
    [rewriteJsSourceMapAsync] answers, and every call made on the way. *)
Definition reconstruct (w : Collaborators) (request : DeferredSourceMapRequest)
    (text : string) (headers : any) : ComposeResult * list Call :=
  let sourceMapUrl := getMappingUrl w text in
  let '(inputSourceMap, calls) := load_input_source_map w request headers sourceMapUrl in
  (rewriteJsSourceMapAsync w (url request) text inputSourceMap,
   CallGetMappingUrl text :: calls
     ++ [CallRewriteJsSourceMapAsync (url request) text inputSourceMap]).

(** [request.sourceMap = m; delete request.js] on one record. *)
Definition cache_source_map (m : any) (r : DeferredSourceMapRequest)
    : DeferredSourceMapRequest :=
  {| uniqueId := uniqueId r; url := url r; js := None; sourceMap := m |}.

(** The record [_getRequestById] found is an element of the array, and
    lines 103-104 write into it in place: the first record with the id is
    replaced, the array is otherwise as it was. *)
Fixpoint update_by_id (id : string) (f : DeferredSourceMapRequest -> DeferredSourceMapRequest)
    (l : list DeferredSourceMapRequest) : list DeferredSourceMapRequest :=
  match l with
  | [] => []
  | r :: l' => if has_id id r then f r :: l' else r :: update_by_id id f l'
  end.

(** What [resolve] hands back when there is nothing to serve: the bare
    [return] of line 64. *)
Definition absent : completion any := Returned undefined.

Definition resolve (w : Collaborators) (id : string) (headers : any)
    (c : DeferredSourceMapCache) : completion any * DeferredSourceMapCache * list Call :=
  match _getRequestById id c with
  | None => (absent, c, [])
  | Some request =>
      if to_boolean (sourceMap request) then (Returned (sourceMap request), c, [])
      else
        match js request with
        | None => (Threw MissingSource, c, [])              (* [!undefined] *)
        | Some text =>
            if text =? EmptyString then (Threw MissingSource, c, [])  (* [!''] *)
            else
              match reconstruct w request text headers with
              | (ComposeFailed e, calls) => (Threw (Rejection e), c, calls)
              | (Composed m, calls) =>
                  (Returned m,
                   set_requests c (update_by_id id (cache_source_map m) (requests c)),
                   calls)
              end
        end
  end.

(** The ways through [resolve], read off its branches: what a call leaves
    (result, cache, call log) together with the condition that leads there.
    [resolve_path] below shows that every call takes one of them. *)
Inductive ResolvePath (w : Collaborators) (id : string) (headers : any)
    (c : DeferredSourceMapCache)
    : completion any * DeferredSourceMapCache * list Call -> Prop :=
| NotFound :
    _getRequestById id c = None ->
    ResolvePath w id headers c (absent, c, [])
| Cached r :
    _getRequestById id c = Some r ->
    to_boolean (sourceMap r) = true ->
    ResolvePath w id headers c (Returned (sourceMap r), c, [])
| MissingJs r :
    _getRequestById id c = Some r ->
    to_boolean (sourceMap r) = false ->
    js r = None \/ js r = Some EmptyString ->
    ResolvePath w id headers c (Threw MissingSource, c, [])
| Reconstructed r text m calls :
    _getRequestById id c = Some r ->
    to_boolean (sourceMap r) = false ->
    js r = Some text -> text <> EmptyString ->
    reconstruct w r text headers = (Composed m, calls) ->
    ResolvePath w id headers c
      (Returned m,
       set_requests c (update_by_id id (cache_source_map m) (requests c)),
       calls)
| CompositionFailed r text e calls :
    _getRequestById id c = Some r ->
    to_boolean (sourceMap r) = false ->
    js r = Some text -> text <> EmptyString ->
    reconstruct w r text headers = (ComposeFailed e, calls) ->
    ResolvePath w id headers c (Threw (Rejection e), c, calls).

(** ** Sequences of operations *)

Inductive Operation : Type :=
| OpDefer (request : DeferredSourceMapRequest)
| OpResolve (w : Collaborators) (id : string) (headers : any)
| OpReset.

Definition step (c : DeferredSourceMapCache) (op : Operation) : DeferredSourceMapCache :=
  match op with
  | OpDefer request => snd (defer request c)
  | OpResolve w id headers => snd (fst (resolve w id headers c))
  | OpReset => reset c
  end.

Definition run (ops : list Operation) (c : DeferredSourceMapCache) : DeferredSourceMapCache :=
  fold_left step ops c.

(** I1 and the one-record-per-url rule. *)
Definition store_invariant (c : DeferredSourceMapCache) : Prop :=
  NoDup (map uniqueId (requests c)) /\ NoDup (map url (requests c)).

(** An operation that neither resets the store nor defers for the url [u]. *)
Definition spares (u : string) (op : Operation) : Prop :=
  match op with
  | OpDefer request => url request <> u
  | OpResolve _ _ _ => True
  | OpReset => False
  end.

(** An operation that does not defer the id. *)
Definition never_defers (id : string) (op : Operation) : Prop :=
  match op with
  | OpDefer request => uniqueId request <> id
  | _ => True
  end.

(** ** Concrete collaborators and records, for evaluating the model *)

(** A world that answers every call the same way. *)
Definition constant_world (reference decoded : any) (fetched : FetchResult)
    (composed : ComposeResult) : Collaborators :=
  {| getMappingUrl := fun _ => reference;
     tryDecodeInlineUrl := fun _ => decoded;
     requestLib := fun _ _ => fetched;
     rewriteJsSourceMapAsync := fun _ _ _ => composed |}.

Definition a_map (name : string) : any :=
  object (property "version" (number 3) (property "file" (str name) no_more)).

(** Inline reference that decodes; the network would fail if it were asked. *)
Definition inline_world : Collaborators :=
  constant_world (str "data:application/json;base64,e30=") (a_map "user")
    (FetchFailed (str "ETIMEDOUT")) (Composed (a_map "composed")).

(** URL-form reference, and the fetch times out. *)
Definition timeout_world : Collaborators :=
  constant_world (str "app.js.map") undefined
    (FetchFailed (str "ESOCKETTIMEDOUT")) (Composed (a_map "composed")).

(** No reference in the text, and the composition rejects. *)
Definition broken_compose_world : Collaborators :=
  constant_world undefined undefined
    (FetchFailed (str "ETIMEDOUT")) (ComposeFailed (str "worker died")).

Definition app_js : string := "http://x/app.js".

Definition pending (id u text : string) : DeferredSourceMapRequest :=
  {| uniqueId := id; url := u; js := Some text; sourceMap := undefined |}.

Definition preresolved (id u : string) (m : any) : DeferredSourceMapRequest :=
  {| uniqueId := id; url := u; js := None; sourceMap := m |}.

(** Neither [js] nor [sourceMap]. *)
Definition hollow (id u : string) : DeferredSourceMapRequest :=
  {| uniqueId := id; url := u; js := None; sourceMap := undefined |}.

(** The predicate lodash builds from [{ url }]; [other_url] is its negation. *)
Definition has_url (u : string) (r : DeferredSourceMapRequest) : bool :=
  url r =? u.

(** No reference in the text, and the composition succeeds. *)
Definition plain_world : Collaborators :=
  constant_world undefined undefined
    (FetchFailed (str "ETIMEDOUT")) (Composed (a_map "composed")).

(** URL-form reference, and the fetch brings a body back. *)
Definition fetched_world : Collaborators :=
  constant_world (str "app.js.map") undefined
    (FetchBody (a_map "user")) (Composed (a_map "composed")).

(** No reference in the text, and the composition resolves to nothing. *)
Definition silent_world : Collaborators :=
  constant_world undefined undefined
    (FetchFailed (str "ETIMEDOUT")) (Composed undefined).

(** ** Lemmas on the array operations *)

Section ArrayLemmas.

Context {A : Type}.
Implicit Types (p q : A -> bool) (l : list A).

Lemma find_app_first p l1 l2 :
  find p (l1 ++ l2) =
  match find p l1 with Some x => Some x | None => find p l2 end.
Proof.
  induction l1 as [|x l1 IH]; simpl; [reflexivity|].
  destruct (p x); [reflexivity|exact IH].
Qed.

Lemma find_none_iff p l :
  find p l = None <-> forall x, In x l -> p x = false.
Proof.
  split.
  - apply find_none.
  - induction l as [|x l IH]; simpl; intros H; [reflexivity|].
    rewrite (H x (or_introl eq_refl)). apply IH.
    intros y Hy. apply H. now right.
Qed.

Lemma find_filter_none p q l :
  find p l = None -> find p (filter q l) = None.
Proof.
  rewrite !find_none_iff. intros H x Hx.
  apply filter_In in Hx. apply H, Hx.
Qed.

Lemma map_filter_NoDup {B : Type} (g : A -> B) q l :
  NoDup (map g l) -> NoDup (map g (filter q l)).
Proof.
  induction l as [|x l IH]; simpl; intros H; [constructor|].
  inversion H as [|? ? Hnotin Hnodup]; subst.
  destruct (q x); simpl; [|now apply IH].
  constructor; [|now apply IH].
  intros Hin. apply Hnotin.
  apply in_map_iff in Hin. destruct Hin as [y [Hy Hin]].
  apply filter_In in Hin. apply in_map_iff. exists y. tauto.
Qed.

Lemma map_snoc_NoDup {B : Type} (g : A -> B) l x :
  NoDup (map g l) -> ~ In (g x) (map g l) -> NoDup (map g (l ++ [x])).
Proof.
  intros Hnd Hnotin. rewrite map_app. simpl.
  apply NoDup_app; [exact Hnd | constructor; [intros [] | constructor] |].
  intros b Hb [Hb' | []]. subst b. contradiction.
Qed.

End ArrayLemmas.

Lemma get_none_not_in id l :
  find (has_id id) l = None <-> ~ In id (map uniqueId l).
Proof.
  rewrite find_none_iff. unfold has_id. split.
  - intros H Hin. apply in_map_iff in Hin. destruct Hin as [r [Hr Hin]].
    specialize (H r Hin). rewrite Hr, String.eqb_refl in H. discriminate.
  - intros H r Hin. apply String.eqb_neq. intros Hr. apply H.
    apply in_map_iff. exists r. tauto.
Qed.

(** With unique ids the lookup finds the one record that has the id. *)
Lemma get_unique id l r :
  NoDup (map uniqueId l) -> In r l -> uniqueId r = id ->
  find (has_id id) l = Some r.
Proof.
  induction l as [|x l IH]; simpl; intros Hnd Hin Hid; [contradiction|].
  inversion Hnd as [|? ? Hnotin Hnd']; subst.
  unfold has_id at 1. destruct (String.eqb_spec (uniqueId x) (uniqueId r)) as [E|E].
  - destruct Hin as [->|Hin]; [reflexivity|].
    exfalso. apply Hnotin. rewrite E. now apply in_map.
  - destruct Hin as [->|Hin]; [congruence|]. now apply IH.
Qed.

Lemma url_not_in_filter u l :
  ~ In u (map url (filter (other_url u) l)).
Proof.
  intros Hin. apply in_map_iff in Hin. destruct Hin as [r [Hr Hin]].
  apply filter_In in Hin. destruct Hin as [_ Hq].
  unfold other_url in Hq. rewrite Hr, String.eqb_refl in Hq. discriminate.
Qed.

Section UpdateLemmas.

Variable f : DeferredSourceMapRequest -> DeferredSourceMapRequest.
Hypothesis f_id : forall r, uniqueId (f r) = uniqueId r.
Hypothesis f_url : forall r, url (f r) = url r.

Lemma update_ids id l : map uniqueId (update_by_id id f l) = map uniqueId l.
Proof using f_id.
  induction l as [|x l IH]; simpl; [reflexivity|].
  destruct (has_id id x); simpl; [now rewrite f_id | now rewrite IH].
Qed.

Lemma update_urls id l : map url (update_by_id id f l) = map url l.
Proof using f_url.
  induction l as [|x l IH]; simpl; [reflexivity|].
  destruct (has_id id x); simpl; [now rewrite f_url | now rewrite IH].
Qed.

Lemma has_id_update id r : has_id id (f r) = has_id id r.
Proof using f_id. unfold has_id. now rewrite f_id. Qed.

Lemma get_update_same id l r :
  find (has_id id) l = Some r ->
  find (has_id id) (update_by_id id f l) = Some (f r).
Proof using f_id.
  induction l as [|x l IH]; simpl; [discriminate|].
  destruct (has_id id x) eqn:E; simpl.
  - intros [= ->]. now rewrite has_id_update, E.
  - intros H. rewrite E. now apply IH.
Qed.

Lemma get_update_other id id' l :
  id <> id' ->
  find (has_id id) (update_by_id id' f l) = find (has_id id) l.
Proof using f_id.
  intros Hne. induction l as [|x l IH]; simpl; [reflexivity|].
  destruct (has_id id' x) eqn:E; simpl.
  - rewrite has_id_update. unfold has_id in E |- *.
    apply String.eqb_eq in E.
    destruct (String.eqb_spec (uniqueId x) id); [congruence|reflexivity].
  - destruct (has_id id x); [reflexivity|exact IH].
Qed.

End UpdateLemmas.


Lemma find_filter_kept {A : Type} (p q : A -> bool) l x :
  find p l = Some x -> q x = true -> find p (filter q l) = Some x.
Proof.
  induction l as [|y l IH]; simpl; [discriminate|].
  destruct (p y) eqn:Hp.
  - intros [= ->] Hq. rewrite Hq. simpl. now rewrite Hp.
  - intros H Hq. destruct (q y); simpl; [rewrite Hp|]; now apply IH.
Qed.

Lemma get_filter_dropped id (q : DeferredSourceMapRequest -> bool) l r :
  NoDup (map uniqueId l) ->
  find (has_id id) l = Some r -> q r = false ->
  find (has_id id) (filter q l) = None.
Proof.
  intros Hnd Hget Hq. apply find_none_iff. intros x Hx.
  apply filter_In in Hx. destruct Hx as [Hin Hqx].
  destruct (has_id id x) eqn:E; [|reflexivity].
  apply String.eqb_eq in E.
  rewrite (get_unique id l x Hnd Hin E) in Hget.
  injection Hget as ->. congruence.
Qed.

(** ** The ways through [resolve] *)

Lemma resolve_not_found w id headers c :
  _getRequestById id c = None ->
  resolve w id headers c = (absent, c, []).
Proof. unfold resolve. now intros ->. Qed.

Lemma resolve_cached w id headers c r :
  _getRequestById id c = Some r ->
  to_boolean (sourceMap r) = true ->
  resolve w id headers c = (Returned (sourceMap r), c, []).
Proof. unfold resolve. now intros -> ->. Qed.

Lemma resolve_missing_js w id headers c r :
  _getRequestById id c = Some r ->
  to_boolean (sourceMap r) = false ->
  js r = None \/ js r = Some EmptyString ->
  resolve w id headers c = (Threw MissingSource, c, []).
Proof. unfold resolve. now intros -> -> [-> | ->]. Qed.

Lemma resolve_reconstructs w id headers c r text :
  _getRequestById id c = Some r ->
  to_boolean (sourceMap r) = false ->
  js r = Some text -> text <> EmptyString ->
  resolve w id headers c =
  match reconstruct w r text headers with
  | (Composed m, calls) =>
      (Returned m, set_requests c (update_by_id id (cache_source_map m) (requests c)), calls)
  | (ComposeFailed e, calls) => (Threw (Rejection e), c, calls)
  end.
Proof.
  unfold resolve. intros -> -> -> Hne.
  apply String.eqb_neq in Hne. rewrite Hne.
  destruct (reconstruct w r text headers) as [[m|e] calls]; reflexivity.
Qed.

(** Every call of [resolve] takes one of the paths. *)
Lemma resolve_path w id headers c :
  ResolvePath w id headers c (resolve w id headers c).
Proof.
  destruct (_getRequestById id c) as [r|] eqn:Hget.
  2:{ rewrite (resolve_not_found _ _ _ _ Hget). now constructor. }
  destruct (to_boolean (sourceMap r)) eqn:Hsm.
  { rewrite (resolve_cached _ _ _ _ _ Hget Hsm). now constructor. }
  destruct (js r) as [text|] eqn:Hjs.
  2:{ rewrite (resolve_missing_js _ _ _ _ _ Hget Hsm (or_introl Hjs)).
      apply (MissingJs _ _ _ _ r); auto. }
  destruct (String.eqb_spec text EmptyString) as [-> | Hne].
  { rewrite (resolve_missing_js _ _ _ _ _ Hget Hsm (or_intror Hjs)).
    apply (MissingJs _ _ _ _ r); auto. }
  rewrite (resolve_reconstructs _ _ _ _ _ _ Hget Hsm Hjs Hne).
  destruct (reconstruct w r text headers) as [[m|e] calls] eqn:Hrec.
  - now apply (Reconstructed _ _ _ _ r text).
  - now apply (CompositionFailed _ _ _ _ r text).
Qed.

(** Inversion of [resolve_path] on a given result. *)
Ltac resolve_inv H :=
  match type of H with
  | resolve ?w ?id ?h ?c = _ =>
      let P := fresh "P" in
      pose proof (resolve_path w id h c) as P;
      rewrite H in P; inversion P; subst; clear P
  end.

(** The log of a reconstruction starts with the lookup of the reference and
    ends with the composition call, whose answer is the result. *)
Lemma reconstruct_calls w r text headers :
  exists input calls,
    reconstruct w r text headers =
    (rewriteJsSourceMapAsync w (url r) text input,
     CallGetMappingUrl text :: calls
       ++ [CallRewriteJsSourceMapAsync (url r) text input]).
Proof.
  unfold reconstruct.
  destruct (load_input_source_map w r headers (getMappingUrl w text)) as [input calls].
  now exists input, calls.
Qed.

Lemma resolve_requests w id headers c :
  snd (fst (resolve w id headers c)) = c \/
  exists m,
    snd (fst (resolve w id headers c))
    = set_requests c (update_by_id id (cache_source_map m) (requests c)).
Proof.
  destruct (resolve_path w id headers c); simpl; eauto.
Qed.

(** ** [defer] *)

Lemma defer_duplicate request c r :
  _getRequestById (uniqueId request) c = Some r ->
  defer request c = (Threw (DuplicateIdentifier (uniqueId request)), c).
Proof. unfold defer. now intros ->. Qed.

Lemma defer_fresh request c :
  _getRequestById (uniqueId request) c = None ->
  defer request c =
  (Returned (uniqueId request),
   set_requests c (filter (other_url (url request)) (requests c) ++ [request])).
Proof. unfold defer. now intros ->. Qed.

(** A [defer] that returned went through the fresh branch. *)
Lemma defer_returned request c :
  (exists id, fst (defer request c) = Returned id) ->
  _getRequestById (uniqueId request) c = None.
Proof.
  unfold defer. destruct (_getRequestById (uniqueId request) c); [|reflexivity].
  intros [id H]. discriminate.
Qed.

Lemma get_after_defer request c :
  _getRequestById (uniqueId request) c = None ->
  _getRequestById (uniqueId request) (snd (defer request c)) = Some request.
Proof.
  intros H. rewrite (defer_fresh _ _ H). unfold _getRequestById in *. simpl.
  rewrite find_app_first, (find_filter_none _ _ _ H). simpl.
  unfold has_id. now rewrite String.eqb_refl.
Qed.

(** After an accepted [defer], no record of another id has the url. *)
Lemma get_superseded request c id :
  _getRequestById (uniqueId request) c = None ->
  id <> uniqueId request ->
  (forall r, In r (requests c) -> uniqueId r = id -> url r = url request) ->
  _getRequestById id (snd (defer request c)) = None.
Proof.
  intros Hfresh Hne Hurl. rewrite (defer_fresh _ _ Hfresh).
  unfold _getRequestById. simpl. apply find_none_iff. intros r Hin.
  unfold has_id. apply String.eqb_neq. intros Hid.
  apply in_app_or in Hin. destruct Hin as [Hin | [<- | []]]; [|congruence].
  apply filter_In in Hin. destruct Hin as [Hin Hq].
  unfold other_url in Hq. rewrite (Hurl r Hin Hid), String.eqb_refl in Hq.
  discriminate.
Qed.

(** ** The store invariant is kept by every operation *)

Lemma new_cache_invariant : store_invariant new_cache.
Proof. split; constructor. Qed.

Lemma reset_invariant c : store_invariant (reset c).
Proof. split; constructor. Qed.

Lemma defer_invariant request c :
  store_invariant c -> store_invariant (snd (defer request c)).
Proof.
  intros [Hid Hurl]. unfold defer.
  destruct (_getRequestById (uniqueId request) c) eqn:Hget; simpl; [now split|].
  split; simpl.
  - apply map_snoc_NoDup; [now apply map_filter_NoDup|].
    apply get_none_not_in, find_filter_none, Hget.
  - apply map_snoc_NoDup; [now apply map_filter_NoDup|].
    apply url_not_in_filter.
Qed.

Lemma resolve_invariant w id headers c :
  store_invariant c -> store_invariant (snd (fst (resolve w id headers c))).
Proof.
  intros Hinv. destruct (resolve_requests w id headers c) as [-> | [m ->]]; [exact Hinv|].
  destruct Hinv as [Hid Hurl]. split; simpl.
  - now rewrite update_ids.
  - now rewrite update_urls.
Qed.

Lemma step_invariant c op : store_invariant c -> store_invariant (step c op).
Proof.
  destruct op as [request | w id headers |]; simpl; intros H.
  - now apply defer_invariant.
  - now apply resolve_invariant.
  - apply reset_invariant.
Qed.

Lemma run_invariant ops : forall c, store_invariant c -> store_invariant (run ops c).
Proof.
  unfold run. induction ops as [|op ops IH]; simpl; intros c H; [exact H|].
  apply IH, step_invariant, H.
Qed.

(** ** Records that stay, records that never come, records that go *)

Lemma step_spares id u c op :
  spares u op ->
  (exists r, _getRequestById id c = Some r /\ url r = u) ->
  exists r, _getRequestById id (step c op) = Some r /\ url r = u.
Proof.
  intros Hop [r [Hget Hu]].
  destruct op as [request | w id' headers |]; simpl in *; [| |contradiction].
  - unfold defer. destruct (_getRequestById (uniqueId request) c); simpl; [eauto|].
    exists r. split; [|exact Hu]. unfold _getRequestById in *. simpl.
    rewrite find_app_first, (find_filter_kept _ _ _ _ Hget); [reflexivity|].
    unfold other_url. rewrite Hu. apply negb_true_iff, String.eqb_neq. congruence.
  - destruct (resolve_requests w id' headers c) as [-> | [m ->]]; [eauto|].
    unfold _getRequestById in *. simpl.
    destruct (String.eqb_spec id id') as [<- | Hne].
    + exists (cache_source_map m r). split; [|exact Hu].
      now apply get_update_same.
    + exists r. split; [|exact Hu]. rewrite get_update_other; auto.
Qed.

Lemma run_spares id u ops : forall c,
  Forall (spares u) ops ->
  (exists r, _getRequestById id c = Some r /\ url r = u) ->
  exists r, _getRequestById id (run ops c) = Some r /\ url r = u.
Proof.
  unfold run. induction ops as [|op ops IH]; simpl; intros c Hops H; [exact H|].
  inversion Hops; subst. apply IH; [assumption|]. now apply step_spares.
Qed.

Lemma step_never_deferred id c op :
  never_defers id op ->
  _getRequestById id c = None -> _getRequestById id (step c op) = None.
Proof.
  destruct op as [request | w id' headers |]; simpl; intros Hop Hget.
  - unfold defer. destruct (_getRequestById (uniqueId request) c); [exact Hget|].
    unfold _getRequestById in *. simpl.
    rewrite find_app_first, (find_filter_none _ _ _ Hget). simpl.
    unfold has_id. apply String.eqb_neq in Hop. now rewrite Hop.
  - destruct (resolve_requests w id' headers c) as [-> | [m ->]]; [exact Hget|].
    unfold _getRequestById in *. simpl.
    apply get_none_not_in. rewrite update_ids by (intros; reflexivity).
    now apply get_none_not_in.
  - reflexivity.
Qed.

Lemma run_never_deferred id ops : forall c,
  Forall (never_defers id) ops ->
  _getRequestById id c = None -> _getRequestById id (run ops c) = None.
Proof.
  unfold run. induction ops as [|op ops IH]; simpl; intros c Hops H; [exact H|].
  inversion Hops; subst. apply IH; [assumption|]. now apply step_never_deferred.
Qed.

(** A record without text is only ever read or removed. *)
Lemma step_keeps_or_removes id c r op :
  store_invariant c ->
  _getRequestById id c = Some r -> js r = None ->
  _getRequestById id (step c op) = Some r \/ _getRequestById id (step c op) = None.
Proof.
  intros [Hids _] Hget Hjs.
  destruct op as [request | w id' headers |]; simpl.
  - unfold defer. destruct (_getRequestById (uniqueId request) c) eqn:Hfresh; simpl;
      [now left|].
    assert (Hne : has_id id request = false).
    { unfold has_id. apply String.eqb_neq. intros E.
      rewrite E, Hget in Hfresh. discriminate. }
    unfold _getRequestById in *. simpl. rewrite find_app_first.
    destruct (other_url (url request) r) eqn:Hq.
    + left. now rewrite (find_filter_kept _ _ _ _ Hget Hq).
    + right. rewrite (get_filter_dropped _ _ _ r Hids Hget Hq). simpl. now rewrite Hne.
  - left. destruct (String.eqb_spec id id') as [<- | Hne].
    + destruct (to_boolean (sourceMap r)) eqn:Hsm.
      * now rewrite (resolve_cached w id headers c r Hget Hsm).
      * now rewrite (resolve_missing_js w id headers c r Hget Hsm (or_introl Hjs)).
    + destruct (resolve_requests w id' headers c) as [-> | [m ->]]; [exact Hget|].
      unfold _getRequestById in *. simpl. rewrite get_update_other; auto.
  - now right.
Qed.

Lemma run_keeps_or_removes id r ops : forall c,
  store_invariant c ->
  _getRequestById id c = Some r -> js r = None ->
  _getRequestById id (run ops c) = Some r \/
  exists ops1 ops2, ops = (ops1 ++ ops2)%list /\ _getRequestById id (run ops1 c) = None.
Proof.
  induction ops as [|op ops IH]; intros c Hinv Hget Hjs; [now left|].
  destruct (step_keeps_or_removes id c r op Hinv Hget Hjs) as [Hkept | Hgone].
  - destruct (IH (step c op) (step_invariant c op Hinv) Hkept Hjs)
      as [Hend | [ops1 [ops2 [-> Hgone]]]]; [now left|].
    right. now exists (op :: ops1), ops2.
  - right. now exists [op], ops.
Qed.

(** ** The claims *)

(** C1 - Idempotent resolution.  A record that carries a source map (the
    test of line 67 passes on its [sourceMap]) is answered from the store:
    [resolve] returns that map, leaves the cache as it is and calls no
    collaborator.  And when a call of [resolve] has returned a map, the
    record holds it, and the next call for the same id returns the same map
    with an empty call log, whatever the collaborators would answer then. *)
Theorem resolve_is_idempotent :
  (forall w id headers c r,
      _getRequestById id c = Some r ->
      to_boolean (sourceMap r) = true ->
      resolve w id headers c = (Returned (sourceMap r), c, []))
  /\
  (forall w1 headers1 w2 headers2 id c m c' calls,
      resolve w1 id headers1 c = (Returned m, c', calls) ->
      to_boolean m = true ->
      (exists r', _getRequestById id c' = Some r' /\ sourceMap r' = m) /\
      resolve w2 id headers2 c' = (Returned m, c', [])).
Proof.
  split; [intros; now apply resolve_cached|].
  intros w1 h1 w2 h2 id c m c' calls Hres Hm.
  assert (Hheld : exists r', _getRequestById id c' = Some r' /\ sourceMap r' = m).
  { resolve_inv Hres.
    - discriminate.
    - eauto.
    - exists (cache_source_map m r). split; [|reflexivity].
      unfold _getRequestById in *. simpl. now apply get_update_same. }
  split; [exact Hheld|].
  destruct Hheld as [r' [Hget' <-]]. now apply resolve_cached.
Qed.

Lemma resolve_is_idempotent_witness :
  (_getRequestById "a" (mkCache 0 [preresolved "a" app_js (a_map "stored")])
     = Some (preresolved "a" app_js (a_map "stored")) /\
   to_boolean (sourceMap (preresolved "a" app_js (a_map "stored"))) = true /\
   resolve timeout_world "a" null (mkCache 0 [preresolved "a" app_js (a_map "stored")])
   = (Returned (a_map "stored"), mkCache 0 [preresolved "a" app_js (a_map "stored")], []))
  /\
  (resolve inline_world "b" null (mkCache 0 [pending "b" app_js "let x = 1"])
   = (Returned (a_map "composed"),
      mkCache 0 [preresolved "b" app_js (a_map "composed")],
      [CallGetMappingUrl "let x = 1";
       CallTryDecodeInlineUrl (str "data:application/json;base64,e30=");
       CallRewriteJsSourceMapAsync app_js "let x = 1" (a_map "user")]) /\
   to_boolean (a_map "composed") = true /\
   resolve broken_compose_world "b" null
     (mkCache 0 [preresolved "b" app_js (a_map "composed")])
   = (Returned (a_map "composed"),
      mkCache 0 [preresolved "b" app_js (a_map "composed")], [])).
Proof.
  split.
  - split; [reflexivity|]. split; [reflexivity|].
    apply (proj1 resolve_is_idempotent timeout_world "a" null
             (mkCache 0 [preresolved "a" app_js (a_map "stored")])
             (preresolved "a" app_js (a_map "stored"))); reflexivity.
  - split; [reflexivity|]. split; [reflexivity|].
    apply (proj2 resolve_is_idempotent inline_world null broken_compose_world null
             "b" (mkCache 0 [pending "b" app_js "let x = 1"]) (a_map "composed")
             (mkCache 0 [preresolved "b" app_js (a_map "composed")])
             [CallGetMappingUrl "let x = 1";
              CallTryDecodeInlineUrl (str "data:application/json;base64,e30=");
              CallRewriteJsSourceMapAsync app_js "let x = 1" (a_map "user")]);
      reflexivity.
Defined.

(** C2 - Supersession.  When [defer A] and then [defer B] both succeed,
    with the same url and different ids, A's record is no longer in the
    store: [resolve] on A's id returns absent (and calls nothing), while
    the store holds B, so that [resolve] on B's id does not return absent
    when the composition collaborator yields a map and not [undefined]. *)
Theorem later_deferral_supersedes A B c c1 c2 :
  url A = url B ->
  uniqueId A <> uniqueId B ->
  defer A c = (Returned (uniqueId A), c1) ->
  defer B c1 = (Returned (uniqueId B), c2) ->
  _getRequestById (uniqueId A) c2 = None /\
  (forall w headers, resolve w (uniqueId A) headers c2 = (absent, c2, [])) /\
  _getRequestById (uniqueId B) c2 = Some B /\
  (forall w headers,
      (forall u text input, rewriteJsSourceMapAsync w u text input <> Composed undefined) ->
      fst (fst (resolve w (uniqueId B) headers c2)) <> absent).
Proof.
  intros Hurl Hne HA HB.
  assert (HfreshA : _getRequestById (uniqueId A) c = None).
  { apply defer_returned. exists (uniqueId A). now rewrite HA. }
  assert (HfreshB : _getRequestById (uniqueId B) c1 = None).
  { apply defer_returned. exists (uniqueId B). now rewrite HB. }
  assert (Hc1 : c1 = snd (defer A c)) by now rewrite HA.
  assert (Hc2 : c2 = snd (defer B c1)) by now rewrite HB.
  assert (HnoA : _getRequestById (uniqueId A) c2 = None).
  { rewrite Hc2. apply get_superseded; [exact HfreshB | exact Hne |].
    intros r Hin Hid. rewrite Hc1, (defer_fresh A c HfreshA) in Hin. simpl in Hin.
    apply in_app_or in Hin. destruct Hin as [Hin | [<- | []]]; [|exact Hurl].
    apply filter_In in Hin. destruct Hin as [Hin _].
    unfold _getRequestById in HfreshA.
    rewrite find_none_iff in HfreshA. specialize (HfreshA r Hin).
    unfold has_id in HfreshA. rewrite Hid, String.eqb_refl in HfreshA. discriminate. }
  assert (HholdsB : _getRequestById (uniqueId B) c2 = Some B).
  { rewrite Hc2. now apply get_after_defer. }
  split; [exact HnoA|]. split; [intros; now apply resolve_not_found|].
  split; [exact HholdsB|].
  intros w headers Hmap. unfold absent.
  destruct (resolve_path w (uniqueId B) headers c2) as
    [Hget | r Hget Hsm | r Hget Hsm Hjs | r text m calls Hget Hsm Hjs Htext Hrec
     | r text e calls Hget Hsm Hjs Htext Hrec]; simpl; try discriminate.
  - rewrite HholdsB in Hget. discriminate.
  - intros [= E]. rewrite E in Hsm. discriminate.
  - intros [= ->].
    destruct (reconstruct_calls w r text headers) as [input [calls' E]].
    rewrite E in Hrec. injection Hrec as Hrec _. now apply (Hmap (url r) text input).
Qed.

Lemma later_deferral_supersedes_witness :
  (url (pending "c" app_js "v1") = url (pending "d" app_js "v2") /\
   uniqueId (pending "c" app_js "v1") <> uniqueId (pending "d" app_js "v2") /\
   defer (pending "c" app_js "v1") new_cache
     = (Returned "c", mkCache 0 [pending "c" app_js "v1"]) /\
   defer (pending "d" app_js "v2") (mkCache 0 [pending "c" app_js "v1"])
     = (Returned "d", mkCache 0 [pending "d" app_js "v2"])) /\
  resolve inline_world "c" null (mkCache 0 [pending "d" app_js "v2"])
    = (absent, mkCache 0 [pending "d" app_js "v2"], []) /\
  fst (fst (resolve inline_world "d" null (mkCache 0 [pending "d" app_js "v2"]))) <> absent.
Proof.
  assert (H2 : uniqueId (pending "c" app_js "v1") <> uniqueId (pending "d" app_js "v2"))
    by discriminate.
  destruct (later_deferral_supersedes (pending "c" app_js "v1") (pending "d" app_js "v2")
              new_cache (mkCache 0 [pending "c" app_js "v1"])
              (mkCache 0 [pending "d" app_js "v2"]) eq_refl H2 eq_refl eq_refl)
    as [_ [Habsent [_ Hheld]]].
  split; [now repeat split|]. split; [apply Habsent|].
  apply Hheld. intros u text input. discriminate.
Defined.

(** C3, as stated, fails: once the record of "a" was superseded by the
    deferral of "b" for the same url, a third [defer] that reuses "a" is
    accepted and changes the store. *)
Lemma superseded_identifier_is_accepted_again :
  defer (pending "a" app_js "v1") new_cache
    = (Returned "a", mkCache 0 [pending "a" app_js "v1"]) /\
  defer (pending "b" app_js "v2") (mkCache 0 [pending "a" app_js "v1"])
    = (Returned "b", mkCache 0 [pending "b" app_js "v2"]) /\
  defer (pending "a" "http://x/lib.js" "v3") (mkCache 0 [pending "b" app_js "v2"])
    = (Returned "a",
       mkCache 0 [pending "b" app_js "v2"; pending "a" "http://x/lib.js" "v3"]).
Proof. repeat split. Qed.

(** C3, amended - Duplicate-identifier rejection.  A [defer] whose
    uniqueId is that of a record the store holds fails with the
    DuplicateIdentifier error and leaves the store unchanged, whatever the
    state of that record.  In particular, after a successful [defer] of a
    record and for as long as it was not removed (the operations in between
    are calls of [resolve], of any id, and deferrals for other urls), a
    [defer] with the same uniqueId is rejected, whether the record was
    resolved in between or is still pending. *)
Theorem held_identifier_is_rejected :
  (forall again c r,
      _getRequestById (uniqueId again) c = Some r ->
      defer again c = (Threw (DuplicateIdentifier (uniqueId again)), c))
  /\
  (forall first again ops c,
      fst (defer first c) = Returned (uniqueId first) ->
      Forall (spares (url first)) ops ->
      uniqueId again = uniqueId first ->
      defer again (run ops (snd (defer first c)))
      = (Threw (DuplicateIdentifier (uniqueId again)), run ops (snd (defer first c)))).
Proof.
  split; [intros; now apply (defer_duplicate again c r)|].
  intros first again ops c Hok Hops Hid.
  assert (Hfresh : _getRequestById (uniqueId first) c = None).
  { apply defer_returned. now exists (uniqueId first). }
  pose proof (get_after_defer first c Hfresh) as Hget.
  destruct (run_spares (uniqueId first) (url first) ops (snd (defer first c)) Hops)
    as [r [Hr _]]; [eauto|].
  apply (defer_duplicate again _ r). now rewrite Hid.
Qed.

Lemma held_identifier_is_rejected_witness :
  (_getRequestById "a" (mkCache 0 [preresolved "a" app_js (a_map "stored")])
     = Some (preresolved "a" app_js (a_map "stored")) /\
   defer (pending "a" "http://x/lib.js" "v2")
     (mkCache 0 [preresolved "a" app_js (a_map "stored")])
   = (Threw (DuplicateIdentifier "a"),
      mkCache 0 [preresolved "a" app_js (a_map "stored")]))
  /\
  (fst (defer (pending "a" app_js "v1") new_cache) = Returned "a" /\
   Forall (spares app_js)
     [OpResolve inline_world "a" null; OpDefer (pending "b" "http://x/lib.js" "v2")] /\
   defer (hollow "a" "http://x/other.js")
     (run [OpResolve inline_world "a" null; OpDefer (pending "b" "http://x/lib.js" "v2")]
        (snd (defer (pending "a" app_js "v1") new_cache)))
   = (Threw (DuplicateIdentifier "a"),
      run [OpResolve inline_world "a" null; OpDefer (pending "b" "http://x/lib.js" "v2")]
        (snd (defer (pending "a" app_js "v1") new_cache)))).
Proof.
  assert (Hops : Forall (spares app_js)
     [OpResolve inline_world "a" null; OpDefer (pending "b" "http://x/lib.js" "v2")]).
  { repeat constructor. simpl. discriminate. }
  destruct held_identifier_is_rejected as [Hheld Hlater].
  split.
  - split; [reflexivity|].
    apply (Hheld (pending "a" "http://x/lib.js" "v2") _
             (preresolved "a" app_js (a_map "stored"))). reflexivity.
  - split; [reflexivity|]. split; [exact Hops|].
    apply (Hlater (pending "a" app_js "v1") (hollow "a" "http://x/other.js") _ new_cache);
      [reflexivity | exact Hops | reflexivity].
Defined.

(** C4 - Store invariant.  Whatever sequence of [defer] (accepted or
    rejected), [resolve] and [reset] is run on a new cache, the store it
    ends in holds no two records with the same uniqueId and no two records
    with the same url. *)
Theorem reachable_store_invariant ops :
  store_invariant (run ops new_cache).
Proof. apply run_invariant, new_cache_invariant. Qed.

(** C5 - Fetch failure is non-fatal.  For a record still to be resolved
    whose text carries a reference that does not decode inline, [resolve]
    asks [requestLib] with the record's url, the caller's headers and a
    timeout of 5000; when that fetch fails, whatever the error, nothing of
    it comes out: the composition is still called, with no input map (its
    input is the falsy answer of the decoder, which the failed fetch left
    in [inputSourceMap]: [undefined] when the decoder answered
    [undefined]), the map it yields is what [resolve] returns, and the only
    error [resolve] can throw is the one the composition rejected with. *)
Theorem fetch_failure_is_not_fatal w id headers c r text error :
  _getRequestById id c = Some r ->
  to_boolean (sourceMap r) = false ->
  js r = Some text -> text <> EmptyString ->
  to_boolean (getMappingUrl w text) = true ->
  to_boolean (tryDecodeInlineUrl w (getMappingUrl w text)) = false ->
  requestLib w (Req.make (url r) headers 5000) true = FetchFailed error ->
  snd (resolve w id headers c)
  = [CallGetMappingUrl text;
     CallTryDecodeInlineUrl (getMappingUrl w text);
     CallRequestLib (Req.make (url r) headers 5000) true;
     CallRewriteJsSourceMapAsync (url r) text
       (tryDecodeInlineUrl w (getMappingUrl w text))]
  /\
  (forall m,
     rewriteJsSourceMapAsync w (url r) text (tryDecodeInlineUrl w (getMappingUrl w text))
       = Composed m ->
     fst (fst (resolve w id headers c)) = Returned m)
  /\
  (forall e, fst (fst (resolve w id headers c)) = Threw e ->
     exists e',
       rewriteJsSourceMapAsync w (url r) text (tryDecodeInlineUrl w (getMappingUrl w text))
         = ComposeFailed e'
       /\ e = Rejection e')
  /\
  (tryDecodeInlineUrl w (getMappingUrl w text) = undefined ->
   In (CallRewriteJsSourceMapAsync (url r) text undefined) (snd (resolve w id headers c))).
Proof.
  intros Hget Hsm Hjs Htext Href Hdec Hfetch.
  rewrite (resolve_reconstructs w id headers c r text Hget Hsm Hjs Htext).
  unfold reconstruct, load_input_source_map. rewrite Href, Hdec, Hfetch.
  destruct (rewriteJsSourceMapAsync w (url r) text
              (tryDecodeInlineUrl w (getMappingUrl w text))) as [m|e'] eqn:E; simpl.
  - split; [reflexivity|]. split; [now intros ? [= <-]|]. split; [discriminate|].
    intros ->. auto.
  - split; [reflexivity|]. split; [discriminate|]. split.
    + intros e [= <-]. now exists e'.
    + intros ->. auto.
Qed.

Lemma fetch_failure_is_not_fatal_witness :
  (_getRequestById "b" (mkCache 0 [pending "b" app_js "let x = 1"])
     = Some (pending "b" app_js "let x = 1") /\
   to_boolean (getMappingUrl timeout_world "let x = 1") = true /\
   to_boolean (tryDecodeInlineUrl timeout_world (getMappingUrl timeout_world "let x = 1"))
     = false /\
   requestLib timeout_world (Req.make app_js null 5000) true
     = FetchFailed (str "ESOCKETTIMEDOUT")) /\
  snd (resolve timeout_world "b" null (mkCache 0 [pending "b" app_js "let x = 1"]))
  = [CallGetMappingUrl "let x = 1";
     CallTryDecodeInlineUrl (str "app.js.map");
     CallRequestLib (Req.make app_js null 5000) true;
     CallRewriteJsSourceMapAsync app_js "let x = 1" undefined] /\
  fst (fst (resolve timeout_world "b" null (mkCache 0 [pending "b" app_js "let x = 1"])))
  = Returned (a_map "composed") /\
  snd (resolve (constant_world (str "app.js.map") null (FetchFailed (str "ECONNRESET"))
                  (Composed (a_map "composed")))
         "b" null (mkCache 0 [pending "b" app_js "let x = 1"]))
  = [CallGetMappingUrl "let x = 1";
     CallTryDecodeInlineUrl (str "app.js.map");
     CallRequestLib (Req.make app_js null 5000) true;
     CallRewriteJsSourceMapAsync app_js "let x = 1" null].
Proof.
  assert (Hne : "let x = 1" <> EmptyString) by discriminate.
  destruct (fetch_failure_is_not_fatal timeout_world "b" null
              (mkCache 0 [pending "b" app_js "let x = 1"])
              (pending "b" app_js "let x = 1") "let x = 1" (str "ESOCKETTIMEDOUT")
              eq_refl eq_refl eq_refl Hne eq_refl eq_refl eq_refl)
    as [Hlog [Hmap _]].
  destruct (fetch_failure_is_not_fatal
              (constant_world (str "app.js.map") null (FetchFailed (str "ECONNRESET"))
                 (Composed (a_map "composed")))
              "b" null (mkCache 0 [pending "b" app_js "let x = 1"])
              (pending "b" app_js "let x = 1") "let x = 1" (str "ECONNRESET")
              eq_refl eq_refl eq_refl Hne eq_refl eq_refl eq_refl)
    as [Hlog' _].
  split; [repeat split|]. split; [exact Hlog|].
  split; [now apply Hmap | exact Hlog'].
Defined.

(** C6 - Absent is not an error.  When the store has no record for the id,
    [resolve] returns absent: nothing is thrown, the store is unchanged and
    no collaborator is called.  That is the case for an id that no operation
    so far deferred, for the id of a record superseded by a later deferral
    for its url, and for every id once [reset] was called. *)
Theorem absent_is_not_an_error :
  (forall w id headers c,
      _getRequestById id c = None -> resolve w id headers c = (absent, c, []))
  /\
  (forall w id headers ops,
      Forall (never_defers id) ops ->
      resolve w id headers (run ops new_cache) = (absent, run ops new_cache, []))
  /\
  (forall w headers older newer c,
      store_invariant c ->
      _getRequestById (uniqueId older) c = Some older ->
      url newer = url older ->
      fst (defer newer c) = Returned (uniqueId newer) ->
      resolve w (uniqueId older) headers (snd (defer newer c))
      = (absent, snd (defer newer c), []))
  /\
  (forall w id headers c,
      resolve w id headers (reset c) = (absent, reset c, [])).
Proof.
  split; [intros; now apply resolve_not_found|].
  split.
  { intros w id headers ops Hops. apply resolve_not_found.
    now apply run_never_deferred. }
  split; [|intros; now apply resolve_not_found].
  intros w headers older newer c [Hids _] Hheld Hurl Hok.
  apply resolve_not_found.
  assert (Hfresh : _getRequestById (uniqueId newer) c = None).
  { apply defer_returned. now exists (uniqueId newer). }
  assert (Hne : uniqueId newer <> uniqueId older).
  { intros E. rewrite E, Hheld in Hfresh. discriminate. }
  rewrite (defer_fresh newer c Hfresh). unfold _getRequestById in *. simpl.
  rewrite find_app_first, (get_filter_dropped _ _ _ older Hids Hheld).
  - simpl. unfold has_id. apply String.eqb_neq in Hne. now rewrite Hne.
  - unfold other_url. now rewrite Hurl, String.eqb_refl.
Qed.

Lemma absent_is_not_an_error_witness :
  (_getRequestById "zz" (mkCache 0 [pending "a" app_js "v1"]) = None /\
   resolve timeout_world "zz" null (mkCache 0 [pending "a" app_js "v1"])
   = (absent, mkCache 0 [pending "a" app_js "v1"], []))
  /\
  (Forall (never_defers "a") [OpDefer (pending "b" app_js "v1"); OpReset] /\
   resolve timeout_world "a" null (run [OpDefer (pending "b" app_js "v1"); OpReset] new_cache)
   = (absent, run [OpDefer (pending "b" app_js "v1"); OpReset] new_cache, []))
  /\
  (store_invariant (mkCache 0 [pending "c" app_js "v1"]) /\
   fst (defer (pending "d" app_js "v2") (mkCache 0 [pending "c" app_js "v1"])) = Returned "d" /\
   resolve timeout_world "c" null
     (snd (defer (pending "d" app_js "v2") (mkCache 0 [pending "c" app_js "v1"])))
   = (absent, snd (defer (pending "d" app_js "v2") (mkCache 0 [pending "c" app_js "v1"])), [])).
Proof.
  destruct absent_is_not_an_error as [Hnone [Hnever [Hsuperseded _]]].
  assert (Hops : Forall (never_defers "a") [OpDefer (pending "b" app_js "v1"); OpReset]).
  { repeat constructor. simpl. discriminate. }
  assert (Hinv : store_invariant (mkCache 0 [pending "c" app_js "v1"])).
  { split; simpl; repeat constructor; simpl; tauto. }
  split; [split; [reflexivity | now apply Hnone]|].
  split; [split; [exact Hops | now apply Hnever]|].
  split; [exact Hinv|]. split; [reflexivity|].
  apply (Hsuperseded timeout_world null (pending "c" app_js "v1") (pending "d" app_js "v2")
           (mkCache 0 [pending "c" app_js "v1"]) Hinv); reflexivity.
Defined.

(** C7 - Resolve-once memory bound.  When [resolve] has reconstructed the
    map of a record (collaborators were called and the composition
    completed with [m]), the record held under the id no longer has its
    text and has [m] as its [sourceMap]; and from then on, through any
    sequence of [defer], [resolve] and [reset], the store holds that very
    record under the id, for as long as no operation removed it: no
    operation writes to it again. *)
Theorem resolved_record_keeps_only_its_map w id headers c m c' calls :
  store_invariant c ->
  resolve w id headers c = (Returned m, c', calls) ->
  calls <> [] ->
  exists r r',
    _getRequestById id c = Some r /\
    r' = {| uniqueId := uniqueId r; url := url r; js := None; sourceMap := m |} /\
    _getRequestById id c' = Some r' /\
    forall ops,
      _getRequestById id (run ops c') = Some r' \/
      exists ops1 ops2, ops = (ops1 ++ ops2)%list /\ _getRequestById id (run ops1 c') = None.
Proof.
  intros Hinv Hres Hcalls.
  pose proof (resolve_invariant w id headers c Hinv) as Hinv'.
  rewrite Hres in Hinv'. simpl in Hinv'.
  resolve_inv Hres; try contradiction.
  exists r, (cache_source_map m r).
  assert (Hget' : _getRequestById id
            (set_requests c (update_by_id id (cache_source_map m) (requests c)))
          = Some (cache_source_map m r)).
  { unfold _getRequestById in *. simpl. now apply get_update_same. }
  split; [assumption|]. split; [reflexivity|]. split; [exact Hget'|].
  intros ops. now apply run_keeps_or_removes.
Qed.

Lemma resolved_record_keeps_only_its_map_witness :
  (store_invariant (mkCache 0 [pending "a" app_js "let x = 1"]) /\
   resolve inline_world "a" null (mkCache 0 [pending "a" app_js "let x = 1"])
   = (Returned (a_map "composed"),
      mkCache 0 [preresolved "a" app_js (a_map "composed")],
      [CallGetMappingUrl "let x = 1";
       CallTryDecodeInlineUrl (str "data:application/json;base64,e30=");
       CallRewriteJsSourceMapAsync app_js "let x = 1" (a_map "user")])) /\
  exists r r',
    _getRequestById "a" (mkCache 0 [pending "a" app_js "let x = 1"]) = Some r /\
    r' = {| uniqueId := uniqueId r; url := url r; js := None;
            sourceMap := a_map "composed" |} /\
    _getRequestById "a" (mkCache 0 [preresolved "a" app_js (a_map "composed")]) = Some r' /\
    forall ops,
      _getRequestById "a" (run ops (mkCache 0 [preresolved "a" app_js (a_map "composed")]))
        = Some r' \/
      exists ops1 ops2, ops = (ops1 ++ ops2)%list /\
        _getRequestById "a"
          (run ops1 (mkCache 0 [preresolved "a" app_js (a_map "composed")])) = None.
Proof.
  assert (Hinv : store_invariant (mkCache 0 [pending "a" app_js "let x = 1"])).
  { split; simpl; repeat constructor; simpl; tauto. }
  split; [split; [exact Hinv | reflexivity]|].
  apply (resolved_record_keeps_only_its_map inline_world "a" null
           (mkCache 0 [pending "a" app_js "let x = 1"]) (a_map "composed")
           (mkCache 0 [preresolved "a" app_js (a_map "composed")])
           [CallGetMappingUrl "let x = 1";
            CallTryDecodeInlineUrl (str "data:application/json;base64,e30=");
            CallRewriteJsSourceMapAsync app_js "let x = 1" (a_map "user")]
           Hinv eq_refl).
  discriminate.
Defined.

(** C8 - The inline path needs no network.  When the reference found in
    the text of a record decodes inline, the call log of [resolve] holds no
    [requestLib] call; and for a record still to be resolved the calls are
    the lookup, the decoding and the composition on the record's url, its
    text and the decoded map, whose map is what [resolve] returns. *)
Theorem inline_map_needs_no_network w id headers c r text :
  _getRequestById id c = Some r ->
  js r = Some text -> text <> EmptyString ->
  to_boolean (getMappingUrl w text) = true ->
  to_boolean (tryDecodeInlineUrl w (getMappingUrl w text)) = true ->
  existsb is_fetch (snd (resolve w id headers c)) = false
  /\
  (to_boolean (sourceMap r) = false ->
   snd (resolve w id headers c)
   = [CallGetMappingUrl text;
      CallTryDecodeInlineUrl (getMappingUrl w text);
      CallRewriteJsSourceMapAsync (url r) text (tryDecodeInlineUrl w (getMappingUrl w text))]
   /\
   forall m,
     rewriteJsSourceMapAsync w (url r) text (tryDecodeInlineUrl w (getMappingUrl w text))
       = Composed m ->
     fst (fst (resolve w id headers c)) = Returned m).
Proof.
  intros Hget Hjs Htext Href Hdec.
  destruct (to_boolean (sourceMap r)) eqn:Hsm.
  - rewrite (resolve_cached w id headers c r Hget Hsm). split; [reflexivity|discriminate].
  - rewrite (resolve_reconstructs w id headers c r text Hget Hsm Hjs Htext).
    unfold reconstruct, load_input_source_map. rewrite Href, Hdec.
    destruct (rewriteJsSourceMapAsync w (url r) text
                (tryDecodeInlineUrl w (getMappingUrl w text))) as [m|e]; simpl.
    + split; [reflexivity|]. intros _. split; [reflexivity|now intros ? [= <-]].
    + split; [reflexivity|]. intros _. split; [reflexivity|discriminate].
Qed.

Lemma inline_map_needs_no_network_witness :
  (_getRequestById "a" (mkCache 0 [pending "a" app_js "let x = 1"])
     = Some (pending "a" app_js "let x = 1") /\
   to_boolean (getMappingUrl inline_world "let x = 1") = true /\
   to_boolean (tryDecodeInlineUrl inline_world (getMappingUrl inline_world "let x = 1"))
     = true) /\
  existsb is_fetch
    (snd (resolve inline_world "a" null (mkCache 0 [pending "a" app_js "let x = 1"])))
  = false /\
  fst (fst (resolve inline_world "a" null (mkCache 0 [pending "a" app_js "let x = 1"])))
  = Returned (a_map "composed").
Proof.
  assert (Hne : "let x = 1" <> EmptyString) by discriminate.
  destruct (inline_map_needs_no_network inline_world "a" null
              (mkCache 0 [pending "a" app_js "let x = 1"])
              (pending "a" app_js "let x = 1") "let x = 1"
              eq_refl eq_refl Hne eq_refl eq_refl) as [Hnofetch Hcomposed].
  split; [repeat split|]. split; [exact Hnofetch|].
  destruct (Hcomposed eq_refl) as [_ Hmap]. now apply Hmap.
Defined.

(** C9, as stated, fails: a record whose text is present but empty makes
    [resolve] throw MissingSource, although its [js] is not missing. *)
Lemma empty_text_counts_as_missing :
  defer (pending "a" app_js EmptyString) new_cache
    = (Returned "a", mkCache 0 [pending "a" app_js EmptyString]) /\
  _getRequestById "a" (mkCache 0 [pending "a" app_js EmptyString])
    = Some (pending "a" app_js EmptyString) /\
  js (pending "a" app_js EmptyString) = Some EmptyString /\
  js (pending "a" app_js EmptyString) <> None /\
  resolve inline_world "a" null (mkCache 0 [pending "a" app_js EmptyString])
    = (Threw MissingSource, mkCache 0 [pending "a" app_js EmptyString], []).
Proof. repeat split. discriminate. Qed.

(** C9, amended - MissingSource raises-iff.  [resolve] throws the
    MissingSource error exactly when the record looked up exists, carries
    no source map, and its text is missing or is the empty string.  [defer]
    checks none of this: it accepts every record whose id is not held,
    whatever its [js] and [sourceMap], so that a record with neither is
    stored and the error only comes out of a later [resolve] on its id. *)
Theorem missing_source_iff w id headers c :
  (fst (fst (resolve w id headers c)) = Threw MissingSource <->
   exists r, _getRequestById id c = Some r /\
             to_boolean (sourceMap r) = false /\
             (js r = None \/ js r = Some EmptyString))
  /\
  (forall request,
     _getRequestById (uniqueId request) c = None ->
     fst (defer request c) = Returned (uniqueId request) /\
     _getRequestById (uniqueId request) (snd (defer request c)) = Some request /\
     (to_boolean (sourceMap request) = false ->
      js request = None \/ js request = Some EmptyString ->
      resolve w (uniqueId request) headers (snd (defer request c))
      = (Threw MissingSource, snd (defer request c), []))).
Proof.
  split.
  - split.
    + destruct (resolve_path w id headers c); simpl; try discriminate.
      intros _. eauto.
    + intros [r [Hget [Hsm Hjs]]].
      now rewrite (resolve_missing_js w id headers c r Hget Hsm Hjs).
  - intros request Hfresh.
    pose proof (get_after_defer request c Hfresh) as Hheld.
    split; [now rewrite (defer_fresh request c Hfresh)|].
    split; [exact Hheld|].
    intros Hsm Hjs. now apply (resolve_missing_js _ _ _ _ request).
Qed.

Lemma missing_source_iff_witness :
  (_getRequestById "a" new_cache = None /\
   to_boolean (sourceMap (hollow "a" app_js)) = false /\
   js (hollow "a" app_js) = None) /\
  fst (defer (hollow "a" app_js) new_cache) = Returned "a" /\
  resolve inline_world "a" null (snd (defer (hollow "a" app_js) new_cache))
  = (Threw MissingSource, snd (defer (hollow "a" app_js) new_cache), []) /\
  fst (fst (resolve inline_world "a" null (mkCache 0 [pending "a" app_js EmptyString])))
  = Threw MissingSource.
Proof.
  destruct (missing_source_iff inline_world "a" null new_cache) as [_ Hdefer].
  destruct (Hdefer (hollow "a" app_js) eq_refl) as [Hok [_ Hthrows]].
  split; [repeat split|]. split; [exact Hok|].
  split; [apply Hthrows; [reflexivity | now left]|].
  apply (proj1 (missing_source_iff inline_world "a" null
                  (mkCache 0 [pending "a" app_js EmptyString]))).
  exists (pending "a" app_js EmptyString). repeat split. now right.
Defined.

(** C10 - Compose-failure atomicity.  When the composition fails during
    the first resolution of a record, [resolve] throws the error the
    composition rejected with and leaves the store as it was: the record
    keeps its text and still has no source map.  A later [resolve] on the
    same id therefore goes through the reconstruction again: it calls the
    lookup and, last, the composition on the record's url and text, and its
    result is what that composition answers. *)
Theorem compose_failure_leaves_record w id headers c r text error :
  _getRequestById id c = Some r ->
  to_boolean (sourceMap r) = false ->
  js r = Some text -> text <> EmptyString ->
  fst (reconstruct w r text headers) = ComposeFailed error ->
  resolve w id headers c = (Threw (Rejection error), c, snd (reconstruct w r text headers))
  /\
  forall w' headers', exists input calls,
    snd (resolve w' id headers' c)
    = CallGetMappingUrl text :: calls ++ [CallRewriteJsSourceMapAsync (url r) text input]
    /\
    fst (fst (resolve w' id headers' c))
    = match rewriteJsSourceMapAsync w' (url r) text input with
      | Composed m => Returned m
      | ComposeFailed e => Threw (Rejection e)
      end.
Proof.
  intros Hget Hsm Hjs Htext Hfail. split.
  - rewrite (resolve_reconstructs w id headers c r text Hget Hsm Hjs Htext).
    destruct (reconstruct w r text headers) as [[m|e] calls]; simpl in *;
      [discriminate|]. now injection Hfail as ->.
  - intros w' headers'.
    rewrite (resolve_reconstructs w' id headers' c r text Hget Hsm Hjs Htext).
    destruct (reconstruct_calls w' r text headers') as [input [calls ->]].
    exists input, calls.
    destruct (rewriteJsSourceMapAsync w' (url r) text input); now split.
Qed.

Lemma compose_failure_leaves_record_witness :
  (_getRequestById "a" (mkCache 0 [pending "a" app_js "let x = 1"])
     = Some (pending "a" app_js "let x = 1") /\
   fst (reconstruct broken_compose_world (pending "a" app_js "let x = 1") "let x = 1" null)
     = ComposeFailed (str "worker died")) /\
  resolve broken_compose_world "a" null (mkCache 0 [pending "a" app_js "let x = 1"])
  = (Threw (Rejection (str "worker died")),
     mkCache 0 [pending "a" app_js "let x = 1"],
     [CallGetMappingUrl "let x = 1";
      CallRewriteJsSourceMapAsync app_js "let x = 1" undefined]).
Proof.
  assert (Hne : "let x = 1" <> EmptyString) by discriminate.
  split; [repeat split|].
  apply (compose_failure_leaves_record broken_compose_world "a" null
           (mkCache 0 [pending "a" app_js "let x = 1"])
           (pending "a" app_js "let x = 1") "let x = 1" (str "worker died")
           eq_refl eq_refl eq_refl Hne eq_refl).
Defined.

(** ** Further properties of the operations *)

Lemma has_url_false_not_in u l :
  existsb (has_url u) l = false <-> ~ In u (map url l).
Proof.
  induction l as [|x l IH]; simpl; [tauto|]. unfold has_url at 1.
  destruct (String.eqb_spec (url x) u) as [E|E]; simpl.
  - split; [discriminate|]. intros H. exfalso. apply H. now left.
  - rewrite IH. tauto.
Qed.

Lemma filter_other_url_all u l :
  ~ In u (map url l) -> filter (other_url u) l = l.
Proof.
  induction l as [|x l IH]; simpl; intros H; [reflexivity|].
  unfold other_url at 1. destruct (String.eqb_spec (url x) u) as [E|E]; simpl.
  - exfalso. apply H. now left.
  - rewrite IH; [reflexivity|]. intros Hin. apply H. now right.
Qed.

(** With one record per url, removing by url takes at most one record. *)
Lemma filter_other_url_length u l :
  NoDup (map url l) ->
  List.length (filter (other_url u) l) + (if existsb (has_url u) l then 1 else 0)
  = List.length l.
Proof.
  induction l as [|x l IH]; simpl; intros Hnd; [reflexivity|].
  inversion Hnd as [|? ? Hnotin Hnd']; subst.
  unfold other_url at 1, has_url at 1.
  destruct (String.eqb_spec (url x) u) as [E|E]; simpl.
  - subst u. rewrite (filter_other_url_all _ _ Hnotin). lia.
  - specialize (IH Hnd'). lia.
Qed.

(** A record that carries a map is only ever read or removed. *)
Lemma step_serves_or_removes id c r op :
  store_invariant c ->
  _getRequestById id c = Some r -> to_boolean (sourceMap r) = true ->
  _getRequestById id (step c op) = Some r \/ _getRequestById id (step c op) = None.
Proof.
  intros [Hids _] Hget Hsm.
  destruct op as [request | w id' headers |]; simpl.
  - unfold defer. destruct (_getRequestById (uniqueId request) c) eqn:Hfresh; simpl;
      [now left|].
    assert (Hne : has_id id request = false).
    { unfold has_id. apply String.eqb_neq. intros E.
      rewrite E, Hget in Hfresh. discriminate. }
    unfold _getRequestById in *. simpl. rewrite find_app_first.
    destruct (other_url (url request) r) eqn:Hq.
    + left. now rewrite (find_filter_kept _ _ _ _ Hget Hq).
    + right. rewrite (get_filter_dropped _ _ _ r Hids Hget Hq). simpl. now rewrite Hne.
  - left. destruct (String.eqb_spec id id') as [<- | Hne].
    + now rewrite (resolve_cached w id headers c r Hget Hsm).
    + destruct (resolve_requests w id' headers c) as [-> | [m ->]]; [exact Hget|].
      unfold _getRequestById in *. simpl. rewrite get_update_other; auto.
  - now right.
Qed.

Lemma run_serves_or_removes id r ops : forall c,
  store_invariant c ->
  _getRequestById id c = Some r -> to_boolean (sourceMap r) = true ->
  _getRequestById id (run ops c) = Some r \/
  exists ops1 ops2, ops = (ops1 ++ ops2)%list /\ _getRequestById id (run ops1 c) = None.
Proof.
  induction ops as [|op ops IH]; intros c Hinv Hget Hsm; [now left|].
  destruct (step_serves_or_removes id c r op Hinv Hget Hsm) as [Hkept | Hgone].
  - destruct (IH (step c op) (step_invariant c op Hinv) Hkept Hsm)
      as [Hend | [ops1 [ops2 [-> Hgone]]]]; [now left|].
    right. now exists (op :: ops1), ops2.
  - right. now exists [op], ops.
Qed.

(** X1 - An accepted [defer] leaves the records of other urls alone: a
    record held under some id whose url differs from the new record's is
    still the one found under that id afterwards. *)
Theorem defer_keeps_other_urls request c id r :
  _getRequestById (uniqueId request) c = None ->
  _getRequestById id c = Some r ->
  url r <> url request ->
  _getRequestById id (snd (defer request c)) = Some r.
Proof.
  intros Hfresh Hget Hurl. rewrite (defer_fresh request c Hfresh).
  unfold _getRequestById in *. simpl.
  rewrite find_app_first, (find_filter_kept _ _ _ _ Hget); [reflexivity|].
  unfold other_url. apply negb_true_iff, String.eqb_neq, Hurl.
Qed.

Lemma defer_keeps_other_urls_witness :
  (_getRequestById "b" (mkCache 0 [preresolved "a" app_js (a_map "stored")]) = None /\
   _getRequestById "a" (mkCache 0 [preresolved "a" app_js (a_map "stored")])
     = Some (preresolved "a" app_js (a_map "stored")) /\
   url (preresolved "a" app_js (a_map "stored")) <> url (pending "b" "http://x/lib.js" "v1"))
  /\
  _getRequestById "a"
    (snd (defer (pending "b" "http://x/lib.js" "v1")
            (mkCache 0 [preresolved "a" app_js (a_map "stored")])))
  = Some (preresolved "a" app_js (a_map "stored")).
Proof.
  assert (Hurl : url (preresolved "a" app_js (a_map "stored"))
                 <> url (pending "b" "http://x/lib.js" "v1")) by discriminate.
  split; [repeat split; exact Hurl|].
  apply (defer_keeps_other_urls (pending "b" "http://x/lib.js" "v1")
           (mkCache 0 [preresolved "a" app_js (a_map "stored")]) "a"
           (preresolved "a" app_js (a_map "stored")) eq_refl eq_refl Hurl).
Defined.

(** X2 - After an accepted [defer] the new record is the last element of
    the array, the elements before it are exactly the former records of
    other urls, and so the new record is the only one with its url. *)
Theorem newest_record_owns_its_url request c :
  _getRequestById (uniqueId request) c = None ->
  exists kept,
    requests (snd (defer request c)) = (kept ++ [request])%list /\
    (forall r, In r kept <-> In r (requests c) /\ url r <> url request) /\
    (forall r, In r (requests (snd (defer request c))) ->
               url r = url request -> r = request).
Proof.
  intros Hfresh. rewrite (defer_fresh request c Hfresh). simpl.
  exists (filter (other_url (url request)) (requests c)).
  assert (Hkept : forall r, In r (filter (other_url (url request)) (requests c)) <->
                            In r (requests c) /\ url r <> url request).
  { intros r. rewrite filter_In. unfold other_url.
    rewrite negb_true_iff, String.eqb_neq. tauto. }
  split; [reflexivity|]. split; [exact Hkept|].
  intros r Hin Hurl. apply in_app_or in Hin.
  destruct Hin as [Hin | [<- | []]]; [|reflexivity].
  apply Hkept in Hin. tauto.
Qed.

Lemma newest_record_owns_its_url_witness :
  _getRequestById "d" (mkCache 0 [pending "c" app_js "v1"]) = None /\
  exists kept,
    requests (snd (defer (pending "d" app_js "v2") (mkCache 0 [pending "c" app_js "v1"])))
    = (kept ++ [pending "d" app_js "v2"])%list /\
    (forall r, In r kept <->
               In r (requests (mkCache 0 [pending "c" app_js "v1"])) /\
               url r <> url (pending "d" app_js "v2")) /\
    (forall r,
        In r (requests (snd (defer (pending "d" app_js "v2")
                               (mkCache 0 [pending "c" app_js "v1"]))))
        -> url r = url (pending "d" app_js "v2") -> r = pending "d" app_js "v2").
Proof.
  split; [reflexivity|].
  apply (newest_record_owns_its_url (pending "d" app_js "v2")
           (mkCache 0 [pending "c" app_js "v1"])). reflexivity.
Defined.

(** X3 - In a store with one record per url, an accepted [defer] for an
    url the store already has replaces that record and the number of
    records stays the same; for a new url the store grows by one. *)
Theorem defer_replaces_or_grows request c :
  store_invariant c ->
  _getRequestById (uniqueId request) c = None ->
  List.length (requests (snd (defer request c)))
  = if existsb (has_url (url request)) (requests c)
    then List.length (requests c)
    else S (List.length (requests c)).
Proof.
  intros [_ Hurls] Hfresh. rewrite (defer_fresh request c Hfresh). simpl.
  rewrite List.length_app. simpl.
  pose proof (filter_other_url_length (url request) (requests c) Hurls) as H.
  destruct (existsb (has_url (url request)) (requests c)); lia.
Qed.

Lemma defer_replaces_or_grows_witness :
  (store_invariant (mkCache 0 [pending "a" app_js "v1"; pending "b" "http://x/lib.js" "v1"]) /\
   _getRequestById "c"
     (mkCache 0 [pending "a" app_js "v1"; pending "b" "http://x/lib.js" "v1"]) = None) /\
  List.length (requests (snd (defer (pending "c" app_js "v2")
            (mkCache 0 [pending "a" app_js "v1"; pending "b" "http://x/lib.js" "v1"]))))
  = 2.
Proof.
  assert (Hinv : store_invariant
            (mkCache 0 [pending "a" app_js "v1"; pending "b" "http://x/lib.js" "v1"])).
  { split; simpl; repeat constructor; simpl; intuition discriminate. }
  split; [split; [exact Hinv | reflexivity]|].
  apply (defer_replaces_or_grows (pending "c" app_js "v2")
           (mkCache 0 [pending "a" app_js "v1"; pending "b" "http://x/lib.js" "v1"])
           Hinv eq_refl).
Defined.

(** X4 - [resolve] touches one record at most and moves none: the ids and
    the urls of the array, in their order, are the same before and after,
    [_idCounter] is unchanged, and what is found under any other id is
    unchanged. *)
Theorem resolve_touches_one_record w id headers c :
  map uniqueId (requests (snd (fst (resolve w id headers c)))) = map uniqueId (requests c) /\
  map url (requests (snd (fst (resolve w id headers c)))) = map url (requests c) /\
  _idCounter (snd (fst (resolve w id headers c))) = _idCounter c /\
  forall id', id' <> id ->
    _getRequestById id' (snd (fst (resolve w id headers c))) = _getRequestById id' c.
Proof.
  destruct (resolve_requests w id headers c) as [-> | [m ->]]; [now repeat split|].
  simpl. split; [now apply update_ids|]. split; [now apply update_urls|].
  split; [reflexivity|]. intros id' Hne.
  unfold _getRequestById. simpl. now apply get_update_other.
Qed.

Lemma resolve_touches_one_record_witness :
  "b" <> "a" /\
  _getRequestById "b"
    (snd (fst (resolve inline_world "a" null
       (mkCache 0 [pending "a" app_js "v1"; pending "b" "http://x/lib.js" "v2"]))))
  = Some (pending "b" "http://x/lib.js" "v2").
Proof.
  assert (Hne : "b" <> "a") by discriminate.
  split; [exact Hne|].
  destruct (resolve_touches_one_record inline_world "a" null
              (mkCache 0 [pending "a" app_js "v1"; pending "b" "http://x/lib.js" "v2"]))
    as [_ [_ [_ Hother]]].
  rewrite (Hother "b" Hne). reflexivity.
Defined.

(** X5 - What [resolve] throws.  A call that throws leaves the store as it
    was, and the error is either MissingSource or the very error the
    composition rejected with, on the url and the text of the record: no
    error of the fetch ever comes out, and [resolve] never throws
    DuplicateIdentifier. *)
Theorem resolve_throws_only w id headers c e :
  fst (fst (resolve w id headers c)) = Threw e ->
  snd (fst (resolve w id headers c)) = c /\
  (e = MissingSource \/
   exists r text input err,
     _getRequestById id c = Some r /\ js r = Some text /\
     rewriteJsSourceMapAsync w (url r) text input = ComposeFailed err /\
     e = Rejection err).
Proof.
  destruct (resolve_path w id headers c) as
    [Hget | r Hget Hsm | r Hget Hsm Hjs | r text m calls Hget Hsm Hjs Htext Hrec
     | r text err calls Hget Hsm Hjs Htext Hrec]; simpl; try discriminate.
  - intros [= <-]. split; [reflexivity|now left].
  - intros [= <-]. split; [reflexivity|]. right.
    destruct (reconstruct_calls w r text headers) as [input [calls' E]].
    rewrite E in Hrec. injection Hrec as Hrec _.
    now exists r, text, input, err.
Qed.

Lemma resolve_throws_only_witness :
  fst (fst (resolve broken_compose_world "a" null (mkCache 0 [pending "a" app_js "v1"])))
    = Threw (Rejection (str "worker died")) /\
  snd (fst (resolve broken_compose_world "a" null (mkCache 0 [pending "a" app_js "v1"])))
    = mkCache 0 [pending "a" app_js "v1"].
Proof.
  split; [reflexivity|].
  apply (resolve_throws_only broken_compose_world "a" null
           (mkCache 0 [pending "a" app_js "v1"]) (Rejection (str "worker died")) eq_refl).
Defined.

(** X6 - No reference, no input map.  When the lookup finds no reference
    in the text of a record still to be resolved, [resolve] neither decodes
    nor fetches: it calls the lookup and then the composition with
    [undefined] as input map, and its result is the composition's. *)
Theorem no_reference_no_input_map w id headers c r text :
  _getRequestById id c = Some r ->
  to_boolean (sourceMap r) = false ->
  js r = Some text -> text <> EmptyString ->
  to_boolean (getMappingUrl w text) = false ->
  snd (resolve w id headers c)
  = [CallGetMappingUrl text; CallRewriteJsSourceMapAsync (url r) text undefined]
  /\
  fst (fst (resolve w id headers c))
  = match rewriteJsSourceMapAsync w (url r) text undefined with
    | Composed m => Returned m
    | ComposeFailed err => Threw (Rejection err)
    end.
Proof.
  intros Hget Hsm Hjs Htext Href.
  rewrite (resolve_reconstructs w id headers c r text Hget Hsm Hjs Htext).
  unfold reconstruct, load_input_source_map. rewrite Href.
  destruct (rewriteJsSourceMapAsync w (url r) text undefined); now split.
Qed.

Lemma no_reference_no_input_map_witness :
  (_getRequestById "a" (mkCache 0 [pending "a" app_js "let x = 1"])
     = Some (pending "a" app_js "let x = 1") /\
   to_boolean (getMappingUrl plain_world "let x = 1") = false) /\
  resolve plain_world "a" null (mkCache 0 [pending "a" app_js "let x = 1"])
  = (Returned (a_map "composed"),
     mkCache 0 [preresolved "a" app_js (a_map "composed")],
     [CallGetMappingUrl "let x = 1";
      CallRewriteJsSourceMapAsync app_js "let x = 1" undefined]).
Proof.
  assert (Hne : "let x = 1" <> EmptyString) by discriminate.
  pose proof (no_reference_no_input_map plain_world "a" null
                (mkCache 0 [pending "a" app_js "let x = 1"])
                (pending "a" app_js "let x = 1") "let x = 1"
                eq_refl eq_refl eq_refl Hne eq_refl) as [Hlog Hres].
  split; [now split|]. reflexivity.
Defined.

(** X7 - A fetched body is the input map.  For a record still to be
    resolved whose reference does not decode inline, when [requestLib]
    brings a body back, that body, whatever it is, is what the composition
    gets as input map, after the lookup, the decoding and the fetch. *)
Theorem fetched_body_is_input_map w id headers c r text body :
  _getRequestById id c = Some r ->
  to_boolean (sourceMap r) = false ->
  js r = Some text -> text <> EmptyString ->
  to_boolean (getMappingUrl w text) = true ->
  to_boolean (tryDecodeInlineUrl w (getMappingUrl w text)) = false ->
  requestLib w (Req.make (url r) headers 5000) true = FetchBody body ->
  snd (resolve w id headers c)
  = [CallGetMappingUrl text;
     CallTryDecodeInlineUrl (getMappingUrl w text);
     CallRequestLib (Req.make (url r) headers 5000) true;
     CallRewriteJsSourceMapAsync (url r) text body]
  /\
  fst (fst (resolve w id headers c))
  = match rewriteJsSourceMapAsync w (url r) text body with
    | Composed m => Returned m
    | ComposeFailed err => Threw (Rejection err)
    end.
Proof.
  intros Hget Hsm Hjs Htext Href Hdec Hfetch.
  rewrite (resolve_reconstructs w id headers c r text Hget Hsm Hjs Htext).
  unfold reconstruct, load_input_source_map. rewrite Href, Hdec, Hfetch.
  destruct (rewriteJsSourceMapAsync w (url r) text body); now split.
Qed.

Lemma fetched_body_is_input_map_witness :
  (_getRequestById "a" (mkCache 0 [pending "a" app_js "let x = 1"])
     = Some (pending "a" app_js "let x = 1") /\
   to_boolean (getMappingUrl fetched_world "let x = 1") = true /\
   to_boolean (tryDecodeInlineUrl fetched_world (getMappingUrl fetched_world "let x = 1"))
     = false /\
   requestLib fetched_world (Req.make app_js null 5000) true = FetchBody (a_map "user")) /\
  snd (resolve fetched_world "a" null (mkCache 0 [pending "a" app_js "let x = 1"]))
  = [CallGetMappingUrl "let x = 1";
     CallTryDecodeInlineUrl (str "app.js.map");
     CallRequestLib (Req.make app_js null 5000) true;
     CallRewriteJsSourceMapAsync app_js "let x = 1" (a_map "user")].
Proof.
  assert (Hne : "let x = 1" <> EmptyString) by discriminate.
  split; [repeat split|].
  apply (fetched_body_is_input_map fetched_world "a" null
           (mkCache 0 [pending "a" app_js "let x = 1"])
           (pending "a" app_js "let x = 1") "let x = 1" (a_map "user")
           eq_refl eq_refl eq_refl Hne eq_refl eq_refl eq_refl).
Defined.

(** X8 - One fetch at most.  The call log of [resolve] holds at most one
    [requestLib] call, and every such call is made with the promise flag
    set, a timeout of 5000, the caller's headers and the url of the record,
    for a record without a map whose text has a reference that did not
    decode inline. *)
Theorem resolve_fetches_at_most_once w id headers c :
  List.length (filter is_fetch (snd (resolve w id headers c))) <= 1 /\
  forall req promise,
    In (CallRequestLib req promise) (snd (resolve w id headers c)) ->
    promise = true /\ Req.timeout req = 5000%Z /\ Req.headers req = headers /\
    exists r text,
      _getRequestById id c = Some r /\ Req.url req = url r /\
      to_boolean (sourceMap r) = false /\ js r = Some text /\
      to_boolean (getMappingUrl w text) = true /\
      to_boolean (tryDecodeInlineUrl w (getMappingUrl w text)) = false.
Proof.
  assert (Hrec : forall r text out calls,
            reconstruct w r text headers = (out, calls) ->
            List.length (filter is_fetch calls) <= 1 /\
            forall req promise, In (CallRequestLib req promise) calls ->
              promise = true /\ Req.timeout req = 5000%Z /\ Req.headers req = headers /\
              Req.url req = url r /\
              to_boolean (getMappingUrl w text) = true /\
              to_boolean (tryDecodeInlineUrl w (getMappingUrl w text)) = false).
  { intros r text out calls. unfold reconstruct, load_input_source_map.
    destruct (to_boolean (getMappingUrl w text)) eqn:Href;
      [destruct (to_boolean (tryDecodeInlineUrl w (getMappingUrl w text))) eqn:Hdec|];
      intros [= _ <-]; simpl; (split; [lia|]); intros req promise Hin;
      repeat (destruct Hin as [Hin | Hin]; try discriminate); try contradiction.
    injection Hin as <- <-. now repeat split. }
  destruct (resolve_path w id headers c) as
    [Hget | r Hget Hsm | r Hget Hsm Hjs | r text m calls Hget Hsm Hjs Htext Hcalls
     | r text err calls Hget Hsm Hjs Htext Hcalls]; simpl;
    try (split; [lia | intros ? ? []]).
  - destruct (Hrec r text _ _ Hcalls) as [Hlen Hshape]. split; [exact Hlen|].
    intros req promise Hin.
    destruct (Hshape req promise Hin) as [? [? [? [? [? ?]]]]].
    repeat split; try assumption. now exists r, text.
  - destruct (Hrec r text _ _ Hcalls) as [Hlen Hshape]. split; [exact Hlen|].
    intros req promise Hin.
    destruct (Hshape req promise Hin) as [? [? [? [? [? ?]]]]].
    repeat split; try assumption. now exists r, text.
Qed.

Lemma resolve_fetches_at_most_once_witness :
  In (CallRequestLib (Req.make app_js null 5000) true)
     (snd (resolve fetched_world "a" null (mkCache 0 [pending "a" app_js "let x = 1"]))) /\
  exists r text,
    _getRequestById "a" (mkCache 0 [pending "a" app_js "let x = 1"]) = Some r /\
    Req.url (Req.make app_js null 5000) = url r /\
    to_boolean (sourceMap r) = false /\ js r = Some text /\
    to_boolean (getMappingUrl fetched_world text) = true /\
    to_boolean (tryDecodeInlineUrl fetched_world (getMappingUrl fetched_world text)) = false.
Proof.
  assert (Hin : In (CallRequestLib (Req.make app_js null 5000) true)
     (snd (resolve fetched_world "a" null (mkCache 0 [pending "a" app_js "let x = 1"])))).
  { simpl. right. right. now left. }
  split; [exact Hin|].
  destruct (resolve_fetches_at_most_once fetched_world "a" null
              (mkCache 0 [pending "a" app_js "let x = 1"])) as [_ Hshape].
  destruct (Hshape _ _ Hin) as [_ [_ [_ Hrecord]]]. exact Hrecord.
Defined.

(** X9 - Served from the store until removed.  Once [resolve] has returned
    a map for an id, then after any further sequence of [defer], [resolve]
    and [reset] a [resolve] on that id returns the same map with an empty
    call log and without changing the store, unless an operation on the way
    removed the record. *)
Theorem resolved_map_is_served_until_removed w id headers c m c' calls :
  store_invariant c ->
  resolve w id headers c = (Returned m, c', calls) ->
  to_boolean m = true ->
  forall ops w' headers',
    resolve w' id headers' (run ops c') = (Returned m, run ops c', []) \/
    exists ops1 ops2,
      ops = (ops1 ++ ops2)%list /\ _getRequestById id (run ops1 c') = None.
Proof.
  intros Hinv Hres Hm ops w' headers'.
  pose proof (resolve_invariant w id headers c Hinv) as Hinv'.
  rewrite Hres in Hinv'. simpl in Hinv'.
  assert (Hheld : exists r', _getRequestById id c' = Some r' /\ sourceMap r' = m).
  { resolve_inv Hres.
    - discriminate.
    - eauto.
    - exists (cache_source_map m r). split; [|reflexivity].
      unfold _getRequestById in *. simpl. now apply get_update_same. }
  destruct Hheld as [r' [Hget' Hmap]].
  assert (Hsm : to_boolean (sourceMap r') = true) by now rewrite Hmap.
  destruct (run_serves_or_removes id r' ops c' Hinv' Hget' Hsm) as [Hkept | Hgone];
    [left | now right].
  rewrite <- Hmap. now apply resolve_cached.
Qed.

Lemma resolved_map_is_served_until_removed_witness :
  (store_invariant (mkCache 0 [pending "a" app_js "let x = 1"]) /\
   resolve plain_world "a" null (mkCache 0 [pending "a" app_js "let x = 1"])
   = (Returned (a_map "composed"),
      mkCache 0 [preresolved "a" app_js (a_map "composed")],
      [CallGetMappingUrl "let x = 1";
       CallRewriteJsSourceMapAsync app_js "let x = 1" undefined]) /\
   to_boolean (a_map "composed") = true) /\
  forall ops w' headers',
    resolve w' "a" headers' (run ops (mkCache 0 [preresolved "a" app_js (a_map "composed")]))
    = (Returned (a_map "composed"),
       run ops (mkCache 0 [preresolved "a" app_js (a_map "composed")]), []) \/
    exists ops1 ops2,
      ops = (ops1 ++ ops2)%list /\
      _getRequestById "a"
        (run ops1 (mkCache 0 [preresolved "a" app_js (a_map "composed")])) = None.
Proof.
  assert (Hinv : store_invariant (mkCache 0 [pending "a" app_js "let x = 1"])).
  { split; simpl; repeat constructor; simpl; tauto. }
  split; [split; [exact Hinv | split; reflexivity]|].
  apply (resolved_map_is_served_until_removed plain_world "a" null
           (mkCache 0 [pending "a" app_js "let x = 1"]) (a_map "composed")
           (mkCache 0 [preresolved "a" app_js (a_map "composed")])
           [CallGetMappingUrl "let x = 1";
            CallRewriteJsSourceMapAsync app_js "let x = 1" undefined]
           Hinv eq_refl eq_refl).
Defined.

(** X10 - A falsy composed map strands the record.  When the composition
    completes with a value that fails the test of line 67 ([undefined],
    [null], [0], the empty string), [resolve] returns it, stores it and
    deletes the text all the same; every later [resolve] on the id then
    throws MissingSource, with no collaborator called. *)
Theorem falsy_composition_strands_record w id headers c m c' calls :
  resolve w id headers c = (Returned m, c', calls) ->
  calls <> [] ->
  to_boolean m = false ->
  (exists r', _getRequestById id c' = Some r' /\ js r' = None /\ sourceMap r' = m) /\
  forall w' headers', resolve w' id headers' c' = (Threw MissingSource, c', []).
Proof.
  intros Hres Hcalls Hm. resolve_inv Hres; try contradiction.
  assert (Hget' : _getRequestById id
            (set_requests c (update_by_id id (cache_source_map m) (requests c)))
          = Some (cache_source_map m r)).
  { unfold _getRequestById in *. simpl. now apply get_update_same. }
  split; [now exists (cache_source_map m r)|].
  intros w' headers'.
  apply (resolve_missing_js _ _ _ _ (cache_source_map m r)); [exact Hget' | exact Hm |].
  now left.
Qed.

Lemma falsy_composition_strands_record_witness :
  (resolve silent_world "a" null (mkCache 0 [pending "a" app_js "let x = 1"])
   = (Returned undefined,
      mkCache 0 [hollow "a" app_js],
      [CallGetMappingUrl "let x = 1";
       CallRewriteJsSourceMapAsync app_js "let x = 1" undefined]) /\
   to_boolean undefined = false) /\
  resolve inline_world "a" null (mkCache 0 [hollow "a" app_js])
  = (Threw MissingSource, mkCache 0 [hollow "a" app_js], []).
Proof.
  assert (Hcalls : [CallGetMappingUrl "let x = 1";
                    CallRewriteJsSourceMapAsync app_js "let x = 1" undefined] <> [])
    by discriminate.
  split; [now split|].
  destruct (falsy_composition_strands_record silent_world "a" null
              (mkCache 0 [pending "a" app_js "let x = 1"]) undefined
              (mkCache 0 [hollow "a" app_js])
              [CallGetMappingUrl "let x = 1";
               CallRewriteJsSourceMapAsync app_js "let x = 1" undefined]
              eq_refl Hcalls eq_refl) as [_ Hlater].
  apply Hlater.
Defined.

(** X11 - Lookup finds every record.  In every store reachable from a new
    cache, each record of the array is the one [_getRequestById] returns
    for its uniqueId: no record is shadowed by an earlier one. *)
Theorem reachable_records_are_found ops r :
  In r (requests (run ops new_cache)) ->
  _getRequestById (uniqueId r) (run ops new_cache) = Some r.
Proof.
  intros Hin. destruct (run_invariant ops new_cache new_cache_invariant) as [Hids _].
  now apply get_unique.
Qed.

Lemma reachable_records_are_found_witness :
  In (pending "b" "http://x/lib.js" "v2")
     (requests (run [OpDefer (pending "a" app_js "v1");
                     OpDefer (pending "b" "http://x/lib.js" "v2");
                     OpResolve inline_world "a" null] new_cache)) /\
  _getRequestById "b"
    (run [OpDefer (pending "a" app_js "v1");
          OpDefer (pending "b" "http://x/lib.js" "v2");
          OpResolve inline_world "a" null] new_cache)
  = Some (pending "b" "http://x/lib.js" "v2").
Proof.
  assert (Hin : In (pending "b" "http://x/lib.js" "v2")
     (requests (run [OpDefer (pending "a" app_js "v1");
                     OpDefer (pending "b" "http://x/lib.js" "v2");
                     OpResolve inline_world "a" null] new_cache))).
  { simpl. right. now left. }
  split; [exact Hin|].
  apply (reachable_records_are_found _ (pending "b" "http://x/lib.js" "v2") Hin).
Defined.

(** X12 - [defer] then [resolve].  A record deferred under a fresh id with
    a map is resolved to that map with no collaborator called and the store
    unchanged.  A record deferred without a map and with a non-empty text is
    reconstructed from exactly what was deferred: the lookup runs on its
    text and the composition, last, on its url and its text, and after a
    composition that completed the store holds the record with the map in
    place of the text. *)
Theorem defer_then_resolve request c w headers :
  _getRequestById (uniqueId request) c = None ->
  (to_boolean (sourceMap request) = true ->
   resolve w (uniqueId request) headers (snd (defer request c))
   = (Returned (sourceMap request), snd (defer request c), []))
  /\
  (forall text,
     to_boolean (sourceMap request) = false ->
     js request = Some text -> text <> EmptyString ->
     exists input calls,
       snd (resolve w (uniqueId request) headers (snd (defer request c)))
       = CallGetMappingUrl text :: calls
           ++ [CallRewriteJsSourceMapAsync (url request) text input]
       /\
       forall m,
         rewriteJsSourceMapAsync w (url request) text input = Composed m ->
         fst (fst (resolve w (uniqueId request) headers (snd (defer request c))))
           = Returned m /\
         _getRequestById (uniqueId request)
           (snd (fst (resolve w (uniqueId request) headers (snd (defer request c)))))
           = Some {| uniqueId := uniqueId request; url := url request;
                     js := None; sourceMap := m |}).
Proof.
  intros Hfresh. pose proof (get_after_defer request c Hfresh) as Hheld.
  split; [intros Hsm; now apply resolve_cached|].
  intros text Hsm Hjs Htext.
  rewrite (resolve_reconstructs w _ headers _ request text Hheld Hsm Hjs Htext).
  destruct (reconstruct_calls w request text headers) as [input [calls ->]].
  exists input, calls.
  destruct (rewriteJsSourceMapAsync w (url request) text input) as [m|err]; simpl;
    (split; [reflexivity|]); [|discriminate].
  intros m' [= <-]. split; [reflexivity|].
  unfold _getRequestById in *. simpl.
  now apply (get_update_same (cache_source_map m)).
Qed.

Lemma defer_then_resolve_witness :
  (_getRequestById "a" new_cache = None /\
   to_boolean (sourceMap (preresolved "a" app_js (a_map "stored"))) = true) /\
  resolve broken_compose_world "a" null
    (snd (defer (preresolved "a" app_js (a_map "stored")) new_cache))
  = (Returned (a_map "stored"),
     snd (defer (preresolved "a" app_js (a_map "stored")) new_cache), []).
Proof.
  split; [now split|].
  destruct (defer_then_resolve (preresolved "a" app_js (a_map "stored")) new_cache
              broken_compose_world null eq_refl) as [Hmap _].
  now apply Hmap.
Defined.

Lemma step_idCounter c op : _idCounter (step c op) = _idCounter c.
Proof.
  destruct op as [request | w id headers |]; simpl; [| |reflexivity].
  - unfold defer. now destruct (_getRequestById (uniqueId request) c).
  - now destruct (resolve_requests w id headers c) as [-> | [m ->]].
Qed.

Lemma run_idCounter ops : forall c, _idCounter (run ops c) = _idCounter c.
Proof.
  unfold run. induction ops as [|op ops IH]; simpl; intros c; [reflexivity|].
  now rewrite IH, step_idCounter.
Qed.

(** X13 - [reset] forgets everything.  Whatever was deferred and resolved
    since the cache was created, after [reset] the cache is in the state of
    a new one, so what follows a [reset] behaves as on a new cache: the
    operations before it have no effect on any later result. *)
Theorem reset_forgets_history ops :
  reset (run ops new_cache) = new_cache /\
  forall later, run (ops ++ OpReset :: later)%list new_cache = run later new_cache.
Proof.
  assert (Hreset : reset (run ops new_cache) = new_cache).
  { unfold reset, set_requests. now rewrite run_idCounter. }
  split; [exact Hreset|].
  intros later. unfold run in *. rewrite fold_left_app. simpl. now rewrite Hreset.
Qed.
